(** * ts-typelevel-di: the environment registry of [src/index.ts]

    The class [Env<T>] wraps one plain JavaScript object, its private field
    [m], and offers [build], [with], [withLayer], [consume] and [get].

    The development has two parts, as the source has two levels.

    - The run-time level is embedded over an explicit object store: every
      object literal, every spread and every [new Env(..)] allocates a cell,
      an [Env] instance holds a _reference_ to its map object, and the
      methods are computations in a small state-and-failure monad.  That
      makes "no operation mutates an existing environment" a statement about
      the store and not a property of the notation.
    - The type level ([Has<K, V>], [T & Has<K, V>], [keyof T], [T[K]]) is
      embedded as functions over a small syntax of TypeScript types. *)

From stdpp Require Import gmap strings list fin_maps.
From Stdlib Require Import ZArith.

Open Scope string_scope.
Open Scope list_scope.

(** ** Run-time level *)

Section Registry.

(** [V]: the service values held by a registry, opaque to it.
    [X]: whatever a layer constructor may throw.
    [W]: the part of the program state that is not the registry's own
         objects; layer constructors may read and change it. *)
Context {V X W : Type}.

(** What [o[key]] yields when [key] is not an own property of the plain
    object [o]: the lookup continues in [Object.prototype], which is not
    part of this repository ([undefined] for the names it does not
    define). *)
Variable proto_get : string → V.

(** References into the object store. *)
Abbreviation loc := nat.

(** The objects the registry creates: plain objects with own enumerable
    data properties under string keys, and instances of [Env] with their
    single field [m]. *)
Inductive cell :=
| Plain (props : gmap string V)
| Instance (m : loc).

(** An invocation either returns or throws. *)
Inductive result (A : Type) :=
| Ok (a : A)
| Throw (x : X).
Global Arguments Ok {A} a.
Global Arguments Throw {A} x.

(** [heap]: the store, a reference being an index and allocation appending;
    [calls]: the receivers with which the registry has invoked a layer
    constructor, oldest first. *)
Record state := State {
  heap : list cell;
  world : W;
  calls : list loc
}.

Definition set_heap (s : state) (h : list cell) : state :=
  State h (world s) (calls s).

(** Computations: [None] is a dereference that no well-typed caller can
    cause (a reference to a cell of the wrong class, or to no cell). *)
Definition M (A : Type) := state → option (result A * state).

Definition ret {A} (a : A) : M A := λ s, Some (Ok a, s).

Definition bind {A B} (c : M A) (k : A → M B) : M B := λ s,
  match c s with
  | Some (Ok a, s') => k a s'
  | Some (Throw x, s') => Some (Throw x, s')
  | None => None
  end.

Notation "'let*' x ':=' c 'in' k" := (bind c (λ x, k))
  (at level 10, x name, c at level 100, k at level 200,
   format "'[v' 'let*'  x  :=  c  'in' '/' k ']'").

(** Allocation of a fresh cell; returns the reference to it. *)
Definition alloc (c : cell) : M loc := λ s,
  Some (Ok (length (heap s)), set_heap s (heap s ++ [c])).

(** [o.m] for an instance [o] of [Env]. *)
Definition read_m (o : loc) : M loc := λ s,
  match heap s !! o with
  | Some (Instance l) => Some (Ok l, s)
  | _ => None
  end.

(** The own properties of the plain object at [o]. *)
Definition own_props (o : loc) : M (gmap string V) := λ s,
  match heap s !! o with
  | Some (Plain p) => Some (Ok p, s)
  | _ => None
  end.

(** [CopyDataProperties]: every own property of [source] is defined on
    [target], replacing the value of a key that [target] already has. *)
Definition CopyDataProperties (target source : gmap string V)
  : gmap string V := source ∪ target.

(** The object literal [{...a, ...b}]. *)
Definition spread2 (a b : loc) : M loc :=
  let* pa := own_props a in
  let* pb := own_props b in
  alloc (Plain (CopyDataProperties (CopyDataProperties ∅ pa) pb)).

(** The object literal [{ [key]: value }]. *)
Definition computed_literal (key : string) (value : V) : M loc :=
  alloc (Plain {[ key := value ]}).

(** [o[key]] for a plain object with own properties [p]. *)
Definition Get (p : gmap string V) (key : string) : V :=
  match p !! key with
  | Some v => v
  | None => proto_get key
  end.

(** [private constructor(m: T) { this.m = m }] *)
Definition new_Env (m : loc) : M loc := alloc (Instance m).

(** [static build = () => new Env({})] *)
Definition build : M loc :=
  let* o := alloc (Plain ∅) in
  new_Env o.

(** [with(key, value)]:
    [const _m = { [key]: value }; return new Env({...this.m, ..._m})] *)
Definition with_ (this : loc) (key : string) (value : V) : M loc :=
  let* _m := computed_literal key value in
  let* tm := read_m this in
  let* o := spread2 tm _m in
  new_Env o.

(** A layer constructor [(env: Env<E>) => V]: it receives the reference
    to an environment, may read the store and allocate in it, may change
    the world, and returns or throws.  It is assumed to terminate. *)
Definition Layer := loc → list cell → W → result V * list cell * W.

(** The application [live(env)], recorded in [calls]. *)
Definition call (live : Layer) (env : loc) : M V := λ s,
  let '(r, h, w) := live env (heap s) (world s) in
  Some (r, State h w (calls s ++ [env])).

(** [withLayer(key, live)]: [return this.with(key, live(this))] *)
Definition withLayer (this : loc) (key : string) (live : Layer) : M loc :=
  let* v := call live this in
  with_ this key v.

(** [consume(key, live)]:
    [const _m = { [key]: live(this) }; return new Env(_m)] *)
Definition consume (this : loc) (key : string) (live : Layer) : M loc :=
  let* v := call live this in
  let* _m := computed_literal key v in
  new_Env _m.

(** [get(key)]: [return this.m[key]] *)
Definition get (this : loc) (key : string) : M V :=
  let* tm := read_m this in
  let* p := own_props tm in
  ret (Get p key).

(** *** Reading the store *)

(** The own properties of the map object of the environment at [e], when
    [e] refers to an [Env] instance whose [m] refers to a plain object. *)
Definition env_map (h : list cell) (e : loc) : option (gmap string V) :=
  match h !! e with
  | Some (Instance l) =>
      match h !! l with
      | Some (Plain p) => Some p
      | _ => None
      end
  | _ => None
  end.

(** [env.get(key)] evaluated in [s] returns [v]. *)
Definition reads (s : state) (env : loc) (key : string) (v : V) : Prop :=
  get env key s = Some (Ok v, s).

(** A layer constructor written against the class's interface cannot
    assign to an existing object: [m] is private and no method of [Env]
    assigns.  It can only allocate. *)
Definition allocates_only (live : Layer) : Prop :=
  ∀ env h w, h `prefix_of` (live env h w).1.2.

(** The chain [this.with(k1, v1). ... .with(kn, vn)]. *)
Fixpoint with_all (this : loc) (kvs : list (string * V)) : M loc :=
  match kvs with
  | [] => ret this
  | (key, value) :: rest =>
      let* e := with_ this key value in
      with_all e rest
  end.

(** The contents after binding the pairs of [kvs], one after the other. *)
Definition bind_all (p : gmap string V) (kvs : list (string * V))
  : gmap string V := foldl (λ m kv, <[ kv.1 := kv.2 ]> m) p kvs.

(** The constructor is private and every call of it in the class passes an
    object literal: the field [m] of every [Env] instance in the store
    refers to a plain object. *)
Definition store_ok (h : list cell) : Prop :=
  ∀ e l, h !! e = Some (Instance l) → ∃ p, h !! l = Some (Plain p).

(** A layer constructor that leaves the store in that shape. *)
Definition keeps_store_ok (live : Layer) : Prop :=
  ∀ env h w, store_ok h → store_ok (live env h w).1.2.

End Registry.

Abbreviation loc := nat.

Arguments cell V : clear implicits.
Arguments result X A : clear implicits.
Arguments state V W : clear implicits.
Arguments M V X W A : clear implicits.
Arguments Layer V X W : clear implicits.

Notation "'let*' x ':=' c 'in' k" := (bind c (λ x, k))
  (at level 10, x name, c at level 100, k at level 200,
   format "'[v' 'let*'  x  :=  c  'in' '/' k ']'").

(** ** Type level *)

(** The types of service values that the examples need, with [A & B]. *)
Inductive ty :=
| TNumber
| TString
| TBoolean
| TUndefined
| TInter (a b : ty).

(** The type argument [T] of [Env<T>]: "[T] is [Has<K1, V1> & Has<K2, V2> &
    ... Has<Kn, Vn>]", starting from the [{}] of [build].  [SHas K Vt] is
    [Has<K, Vt> = {[P in K]: Vt}] at a string literal type [K]. *)
Inductive sig :=
| SEmpty
| SHas (K : string) (Vt : ty)
| SInter (a b : sig).

(** [keyof T] *)
Fixpoint keyof (T : sig) : gset string :=
  match T with
  | SEmpty => ∅
  | SHas K _ => {[ K ]}
  | SInter a b => keyof a ∪ keyof b
  end.

(** The indexed access type [T[K]], for [K] in [keyof T]: a property of an
    intersection has the intersection of the types it has in the members
    that declare it. *)
Fixpoint index (T : sig) (K : string) : option ty :=
  match T with
  | SEmpty => None
  | SHas K' Vt => if decide (K' = K) then Some Vt else None
  | SInter a b =>
      match index a K, index b K with
      | Some x, Some y => Some (TInter x y)
      | Some x, None => Some x
      | None, Some y => Some y
      | None, None => None
      end
  end.

(** The declared results of the methods, from their signatures. *)

(** [build]: [new Env({})] is an [Env<{}>]. *)
Definition build_sig : sig := SEmpty.

(** [with<K, V>(key: K, value: V): Env<T & Has<K, V>>] *)
Definition with_sig (T : sig) (K : string) (Vt : ty) : sig :=
  SInter T (SHas K Vt).


(** [consume<K, V>(key: K, live: Layer<T, V>): Env<Has<K, V>>] *)
Definition consume_sig (T : sig) (K : string) (Vt : ty) : sig :=
  SHas K Vt.

(** [get<K extends keyof T>(key: K): T[K]]; [None] when the call does not
    type-check. *)
Definition get_sig (T : sig) (K : string) : option ty := index T K.

(** The declared signature of the chain [.with(k1, v1). ... .with(kn, vn)]
    on a receiver of signature [T], the values being of types [t1 .. tn]. *)
Definition with_all_sig (T : sig) (kts : list (string * ty)) : sig :=
  foldl (λ T kt, with_sig T kt.1 kt.2) T kts.

(** ** A concrete instance: primitive values, string failures, a counter *)

Inductive jsval :=
| JUndefined
| JNumber (z : Z)
| JString (s : string)
| JBoolean (b : bool)
| JBuiltin (name : string).

(** Which values a type holds. *)
Fixpoint has_type (v : jsval) (t : ty) : bool :=
  match t with
  | TNumber => match v with JNumber _ => true | _ => false end
  | TString => match v with JString _ => true | _ => false end
  | TBoolean => match v with JBoolean _ => true | _ => false end
  | TUndefined => match v with JUndefined => true | _ => false end
  | TInter a b => has_type v a && has_type v b
  end.

(** "Given an environment [Env<Has<K, V>>], it is guaranteed that key [K]
    exists and has a value of type [V]": what a declared signature promises
    of the map object. *)
Definition honours (p : gmap string jsval) (T : sig) : Prop :=
  ∀ K t, index T K = Some t → ∃ v, p !! K = Some v ∧ has_type v t = true.

(** The items of a chain of [with] calls: key, value, and the type at which
    the call is made. *)
Definition item_decl (i : string * jsval * ty) : string * ty := (i.1.1, i.2).

Definition item_typed (i : string * jsval * ty) : Prop :=
  has_type i.1.2 i.2 = true.

(** Some of the members every plain object inherits. *)
Definition object_prototype (key : string) : jsval :=
  if bool_decide (key ∈ ["constructor"; "toString"; "valueOf";
                         "hasOwnProperty"; "__proto__"])
  then JBuiltin key else JUndefined.

(** [a + b] and [a * b], on numbers. *)
Definition js_plus (a b : jsval) : jsval :=
  match a, b with
  | JNumber x, JNumber y => JNumber (x + y)
  | _, _ => JUndefined
  end.

Definition js_times (a b : jsval) : jsval :=
  match a, b with
  | JNumber x, JNumber y => JNumber (x * y)
  | _, _ => JUndefined
  end.

Module Demo.

Abbreviation MJ := (M jsval string nat).
Abbreviation LayerJ := (Layer jsval string nat).
Abbreviation getJ := (get (X:=string) object_prototype).
Abbreviation readsJ := (reads (X:=string) object_prototype).

(** A layer constructor whose body uses the registry's own methods. *)
Definition layer_of (body : loc → MJ jsval) : LayerJ := λ env h w,
  match body env (State h w []) with
  | Some (r, s) => (r, heap s, world s)
  | None => (Throw "TypeError", h, w)
  end.

(** [env => env.get("a") + 1] *)
Definition succ_a : LayerJ :=
  layer_of (λ env,
    let* a := getJ env "a" in
    ret (js_plus a (JNumber 1))).

(** [env => env.get("a") * 2] *)
Definition double_a : LayerJ :=
  layer_of (λ env,
    let* a := getJ env "a" in
    ret (js_times a (JNumber 2))).

(** [env => env.get("a")] *)
Definition same_a : LayerJ :=
  layer_of (λ env, getJ env "a").

(** [env => env.get(key)] *)
Definition reader (key : string) : LayerJ :=
  layer_of (λ env, getJ env key).

(** [env => { counter++; throw "boom" }] *)
Definition failing : LayerJ := λ env h w, (Throw "boom", h, S w).

(** The program state before anything was allocated. *)
Definition s0 : state jsval nat := State [] 0 [].

(** [Env.build().with("a", 1)] *)
Definition env_a : MJ loc :=
  let* e := build in
  with_ e "a" (JNumber 1).

(** [Env.build().with("a", 1).with("x", 99)] *)
Definition env_ax : MJ loc :=
  let* e := env_a in
  with_ e "x" (JNumber 99).

(** The state [env_a] leaves from [s0], and the reference it returns. *)
Definition s_a : state jsval nat :=
  State [Plain ∅; Instance 0;
         Plain {[ "a" := JNumber 1 ]}; Plain {[ "a" := JNumber 1 ]};
         Instance 3] 0 [].
Definition E_a : loc := 4.

(** The state [env_ax] leaves from [s0], and the reference it returns. *)
Definition s_ax : state jsval nat :=
  State (heap s_a ++
         [Plain {[ "x" := JNumber 99 ]};
          Plain (<[ "x" := JNumber 99 ]> {[ "a" := JNumber 1 ]});
          Instance 6]) 0 [].
Definition E_ax : loc := 7.

(** [Env.build().with("a", 1).with("a", "x").get("a")] *)
Definition rebind_a : MJ jsval :=
  let* e0 := build in
  let* e1 := with_ e0 "a" (JNumber 1) in
  let* e2 := with_ e1 "a" (JString "x") in
  getJ e2 "a".

(** The declared type argument of [Env.build().with("a", 1).with("a", "x")]. *)
Definition rebind_a_sig : sig :=
  with_sig (with_sig build_sig "a" TNumber) "a" TString.

End Demo.

(** ** Facts about the run-time level *)

Section RegistryFacts.

Context {V X W : Type} (proto_get : string → V).

Implicit Types (s : state V W) (h : list (cell V)) (p : gmap string V).
Implicit Types (e this E : loc) (key K : string) (live : Layer V X W).
Implicit Types (v value : V).

(** The methods at the failure type [X] of this section. *)
Local Abbreviation build := (build (X:=X)).
Local Abbreviation with_ := (with_ (X:=X)).
Local Abbreviation get := (get (X:=X) proto_get).
Local Abbreviation reads := (reads (X:=X) proto_get).
Local Abbreviation Get := (Get proto_get).

Lemma env_map_Some h e p :
  env_map h e = Some p ↔
  ∃ l, h !! e = Some (Instance l) ∧ h !! l = Some (Plain p).
Proof.
  unfold env_map. split.
  - destruct (h !! e) as [[q|l]|] eqn:He; try discriminate.
    destruct (h !! l) as [[q|l']|] eqn:Hl; try discriminate.
    intros [= ->]. eauto.
  - intros (l & -> & ->). reflexivity.
Qed.

Lemma env_map_app h h' e p :
  env_map h e = Some p → env_map (h ++ h') e = Some p.
Proof.
  rewrite !env_map_Some. intros (l & He & Hl). exists l.
  split; apply lookup_app_l_Some; assumption.
Qed.

Lemma env_map_prefix h h' e p :
  h `prefix_of` h' → env_map h e = Some p → env_map h' e = Some p.
Proof. intros [k ->]. apply env_map_app. Qed.

Lemma spread_singleton p key (value : V) :
  CopyDataProperties (CopyDataProperties ∅ p) {[ key := value ]}
  = <[ key := value ]> p.
Proof.
  unfold CopyDataProperties.
  rewrite (right_id_L ∅ (∪)). symmetry. apply insert_union_singleton_l.
Qed.

Lemma build_run s :
  build s
  = Some (Ok (S (length (heap s))),
          set_heap s (heap s ++ [Plain ∅; Instance (length (heap s))])).
Proof.
  unfold build, bind, new_Env, alloc, set_heap. simpl.
  rewrite length_app, <- app_assoc. simpl.
  repeat f_equal; lia.
Qed.

Lemma env_map_fresh h p :
  env_map (h ++ [Plain p; Instance (length h)]) (S (length h)) = Some p.
Proof.
  apply env_map_Some. exists (length h). split.
  - rewrite lookup_app_r by lia.
    replace (S (length h) - length h) with 1 by lia. reflexivity.
  - rewrite lookup_app_r by lia.
    replace (length h - length h) with 0 by lia. reflexivity.
Qed.

Lemma with_run s this p key value :
  env_map (heap s) this = Some p →
  with_ this key value s
  = Some (Ok (S (S (length (heap s)))),
          set_heap s (heap s ++ [Plain {[ key := value ]};
                                 Plain (<[ key := value ]> p);
                                 Instance (S (length (heap s)))])).
Proof.
  intros (l & He & Hl)%env_map_Some.
  unfold with_, bind, computed_literal, read_m, spread2, own_props,
    new_Env, alloc, set_heap. simpl.
  rewrite (lookup_app_l_Some _ _ _ _ He).
  unfold bind. simpl.
  rewrite (lookup_app_l_Some _ _ _ _ Hl). simpl.
  rewrite lookup_app_r by lia.
  replace (length (heap s) - length (heap s)) with 0 by lia. simpl.
  rewrite spread_singleton, !length_app, <- !app_assoc. simpl.
  repeat f_equal; lia.
Qed.

Lemma get_run s this p key :
  env_map (heap s) this = Some p → reads s this key (Get p key).
Proof.
  intros (l & He & Hl)%env_map_Some.
  unfold reads, get, bind, read_m, own_props, ret.
  rewrite He, Hl. reflexivity.
Qed.

Lemma env_map_extended h p c :
  env_map (h ++ [c; Plain p; Instance (S (length h))]) (S (S (length h)))
  = Some p.
Proof.
  apply env_map_Some. exists (S (length h)). split.
  - rewrite lookup_app_r by lia.
    replace (S (S (length h)) - length h) with 2 by lia. reflexivity.
  - rewrite lookup_app_r by lia.
    replace (S (length h) - length h) with 1 by lia. reflexivity.
Qed.

(** What [with] does to the store: it allocates, and the environment it
    returns is a new one whose map is that of [this] with [key] set. *)
Lemma with_spec s this p key value :
  env_map (heap s) this = Some p →
  ∃ E' s',
    with_ this key value s = Some (Ok E', s')
    ∧ heap s `prefix_of` heap s'
    ∧ world s' = world s
    ∧ calls s' = calls s
    ∧ (length (heap s) ≤ E')%nat
    ∧ env_map (heap s') E' = Some (<[ key := value ]> p).
Proof.
  intros Hp. rewrite (with_run _ _ _ _ _ Hp).
  eexists _, _. split; [reflexivity|]. simpl.
  repeat split; [apply prefix_app_r; reflexivity | lia |].
  apply env_map_extended.
Qed.

Lemma call_run s E live r h1 w1 :
  live E (heap s) (world s) = (r, h1, w1) →
  call live E s = Some (r, State h1 w1 (calls s ++ [E])).
Proof. intros Hl. unfold call. rewrite Hl. reflexivity. Qed.

Lemma allocates_only_run live E h w r h1 w1 :
  allocates_only live → live E h w = (r, h1, w1) → h `prefix_of` h1.
Proof. intros Ha Hl. specialize (Ha E h w). rewrite Hl in Ha. exact Ha. Qed.

Lemma withLayer_run s E K live r h1 w1 :
  live E (heap s) (world s) = (r, h1, w1) →
  withLayer E K live s
  = match r with
    | Ok v => with_ E K v (State h1 w1 (calls s ++ [E]))
    | Throw x => Some (Throw x, State h1 w1 (calls s ++ [E]))
    end.
Proof.
  intros Hl. unfold withLayer, bind at 1.
  rewrite (call_run _ _ _ _ _ _ Hl). destruct r; reflexivity.
Qed.

Lemma consume_run s E K live r h1 w1 :
  live E (heap s) (world s) = (r, h1, w1) →
  consume E K live s
  = match r with
    | Ok v =>
        Some (Ok (S (length h1)),
              State (h1 ++ [Plain {[ K := v ]}; Instance (length h1)])
                    w1 (calls s ++ [E]))
    | Throw x => Some (Throw x, State h1 w1 (calls s ++ [E]))
    end.
Proof.
  intros Hl. unfold consume, bind at 1.
  rewrite (call_run _ _ _ _ _ _ Hl). destruct r; [|reflexivity].
  unfold bind, computed_literal, new_Env, alloc, set_heap. simpl.
  rewrite length_app, <- app_assoc. simpl.
  repeat f_equal; lia.
Qed.

Lemma reads_Get s E p K v :
  env_map (heap s) E = Some p → reads s E K v ↔ v = Get p K.
Proof.
  intros Hp. pose proof (get_run s E p K Hp) as Hg.
  unfold reads in *. split.
  - intros Hv. rewrite Hg in Hv. congruence.
  - intros ->. exact Hg.
Qed.

Lemma Get_insert_eq p K v : Get (<[ K := v ]> p) K = v.
Proof. unfold Get. by rewrite lookup_insert_eq. Qed.

Lemma Get_insert_ne p K K' v : K ≠ K' → Get (<[ K := v ]> p) K' = Get p K'.
Proof. intros Hne. unfold Get. by rewrite lookup_insert_ne. Qed.

Lemma bind_Ok {A B} (c : M V X W A) (k : A → M V X W B) s a s' :
  c s = Some (Ok a, s') → bind c k s = k a s'.
Proof. intros Hc. unfold bind. rewrite Hc. reflexivity. Qed.

(** [by_map H]: settle what [get] returns from the map object that [H]
    gives for the environment. *)
Local Tactic Notation "by_map" constr(H) := apply (reads_Get _ _ _ _ _ H).
Local Tactic Notation "by_map" constr(H) "in" hyp(H') :=
  apply (reads_Get _ _ _ _ _ H) in H'.

(** A map has one entry per key: the entries of [m] under a key it binds
    are that one binding. *)
Lemma entries_of_key (m : gmap string V) K v :
  m !! K = Some v →
  filter (λ kv : string * V, kv.1 = K) (map_to_list m) = [(K, v)].
Proof.
  intros Hm.
  assert (Hall : ∀ kv, kv ∈ filter (λ kv : string * V, kv.1 = K)
                                   (map_to_list m) → kv = (K, v)).
  { intros [k u] [Hk Hin]%list_elem_of_filter. simpl in Hk. subst k.
    apply elem_of_map_to_list in Hin. congruence. }
  assert (Hin : (K, v) ∈ filter (λ kv : string * V, kv.1 = K)
                                (map_to_list m)).
  { apply list_elem_of_filter. split; [reflexivity|].
    by apply elem_of_map_to_list. }
  assert (Hnd : NoDup (filter (λ kv : string * V, kv.1 = K)
                              (map_to_list m))).
  { apply NoDup_filter, NoDup_map_to_list. }
  destruct (filter _ (map_to_list m)) as [|a [|b l]].
  - by apply elem_of_nil in Hin.
  - f_equal. apply Hall. left.
  - exfalso. apply NoDup_cons in Hnd as [Hnot _]. apply Hnot.
    rewrite (Hall a) by left. rewrite (Hall b) by (right; left). left.
Qed.

(** C1. Retrieving [K] from the environment obtained by binding [K] to
    [v] on the empty environment returns [v]:
    [Env.build().with(K, v).get(K) == v], from any program state. *)
Theorem get_with_build s K v :
  ∃ s',
    (let* e0 := build in
     let* e1 := with_ e0 K v in
     get e1 K) s = Some (Ok v, s').
Proof.
  rewrite (bind_Ok _ _ _ _ _ (build_run s)).
  destruct (with_spec (set_heap s (heap s ++ [Plain ∅; Instance (length (heap s))]))
              (S (length (heap s))) ∅ K v) as (E' & s' & Hw & _ & _ & _ & _ & Hm).
  { apply env_map_fresh. }
  rewrite (bind_Ok _ _ _ _ _ Hw). exists s'.
  by_map Hm. by rewrite Get_insert_eq.
Qed.

(** C4. Last write wins on rebind: after [E.with(K, v1).with(K, v2)],
    [get(K)] returns [v2], and the map object of the result has exactly
    one entry under [K], the one for [v2]; rebinding adds no entry. *)
Theorem rebind_last_write_wins s E p K v1 v2 :
  env_map (heap s) E = Some p →
  ∃ E1 s1 E2 s2 p1 p2,
    with_ E K v1 s = Some (Ok E1, s1)
    ∧ with_ E1 K v2 s1 = Some (Ok E2, s2)
    ∧ reads s2 E2 K v2
    ∧ env_map (heap s1) E1 = Some p1
    ∧ env_map (heap s2) E2 = Some p2
    ∧ filter (λ kv : string * V, kv.1 = K) (map_to_list p2) = [(K, v2)]
    ∧ size p2 = size p1.
Proof.
  intros Hp.
  destruct (with_spec s E p K v1 Hp) as (E1 & s1 & Hw1 & _ & _ & _ & _ & Hm1).
  destruct (with_spec s1 E1 _ K v2 Hm1) as (E2 & s2 & Hw2 & _ & _ & _ & _ & Hm2).
  exists E1, s1, E2, s2, (<[K:=v1]> p), (<[K:=v2]> (<[K:=v1]> p)).
  repeat split; try assumption.
  - by_map Hm2. by rewrite Get_insert_eq.
  - apply entries_of_key, lookup_insert_eq.
  - rewrite insert_insert_eq.
    rewrite <- (insert_delete_eq p K v2), <- (insert_delete_eq p K v1).
    rewrite !map_size_insert_None by apply lookup_delete_eq. reflexivity.
Qed.

(** C7. Binding does not disturb other keys: after
    [E.with(K1, v1).with(K2, v2)] with [K1 ≠ K2], [get(K1)] returns [v1],
    [get(K2)] returns [v2], and every other key [K3] reads in the result
    as it reads in [E] (for a key bound in [E]: its value in [E]). *)
Theorem bind_keeps_other_keys s E p K1 K2 v1 v2 :
  K1 ≠ K2 →
  env_map (heap s) E = Some p →
  ∃ E1 s1 E2 s2,
    with_ E K1 v1 s = Some (Ok E1, s1)
    ∧ with_ E1 K2 v2 s1 = Some (Ok E2, s2)
    ∧ reads s2 E2 K1 v1
    ∧ reads s2 E2 K2 v2
    ∧ (∀ K3 v3, K3 ≠ K1 → K3 ≠ K2 →
         p !! K3 = Some v3 → reads s E K3 v3 ∧ reads s2 E2 K3 v3)
    ∧ (∀ K3 v3, K3 ≠ K1 → K3 ≠ K2 → reads s E K3 v3 → reads s2 E2 K3 v3).
Proof.
  intros Hne Hp.
  destruct (with_spec s E p K1 v1 Hp) as (E1 & s1 & Hw1 & _ & _ & _ & _ & Hm1).
  destruct (with_spec s1 E1 _ K2 v2 Hm1) as (E2 & s2 & Hw2 & _ & _ & _ & _ & Hm2).
  exists E1, s1, E2, s2.
  assert (Hother : ∀ K3 v3, K3 ≠ K1 → K3 ≠ K2 →
                     reads s E K3 v3 → reads s2 E2 K3 v3).
  { intros K3 v3 Hn1 Hn2 Hr. by_map Hp in Hr. by_map Hm2.
    by rewrite !Get_insert_ne. }
  assert (Hbound : ∀ K3 v3, p !! K3 = Some v3 → reads s E K3 v3).
  { intros K3 v3 Hb. by_map Hp. unfold Get. by rewrite Hb. }
  split; [exact Hw1|]. split; [exact Hw2|].
  split; [|split; [|split; [|exact Hother]]].
  - by_map Hm2. rewrite Get_insert_ne by (intros ->; by apply Hne).
    by rewrite Get_insert_eq.
  - by_map Hm2. by rewrite Get_insert_eq.
  - intros K3 v3 Hn1 Hn2 Hb. split; [by apply Hbound|].
    apply Hother; [assumption..|by apply Hbound].
Qed.

(** C8. Disjoint binds commute: for [K1 ≠ K2], [E.with(K1, v1).with(K2,
    v2)] and [E.with(K2, v2).with(K1, v1)] hold map objects with the same
    entries, so [get] returns the same value from both for every key. *)
Theorem disjoint_binds_commute s E p K1 K2 v1 v2 :
  K1 ≠ K2 →
  env_map (heap s) E = Some p →
  ∃ Ea sa Eb sb q,
    (let* e := with_ E K1 v1 in with_ e K2 v2) s = Some (Ok Ea, sa)
    ∧ (let* e := with_ E K2 v2 in with_ e K1 v1) s = Some (Ok Eb, sb)
    ∧ env_map (heap sa) Ea = Some q
    ∧ env_map (heap sb) Eb = Some q
    ∧ reads sa Ea K1 v1 ∧ reads sb Eb K1 v1
    ∧ reads sa Ea K2 v2 ∧ reads sb Eb K2 v2
    ∧ (∀ K v, reads sa Ea K v ↔ reads sb Eb K v).
Proof.
  intros Hne Hp.
  destruct (with_spec s E p K1 v1 Hp) as (E1 & s1 & Hw1 & _ & _ & _ & _ & Hm1).
  destruct (with_spec s1 E1 _ K2 v2 Hm1) as (Ea & sa & Hwa & _ & _ & _ & _ & Hma).
  destruct (with_spec s E p K2 v2 Hp) as (E2 & s2 & Hw2 & _ & _ & _ & _ & Hm2).
  destruct (with_spec s2 E2 _ K1 v1 Hm2) as (Eb & sb & Hwb & _ & _ & _ & _ & Hmb).
  rewrite (insert_insert_ne _ K1 K2) in Hmb by (intros ->; by apply Hne).
  exists Ea, sa, Eb, sb, (<[K2:=v2]> (<[K1:=v1]> p)).
  split; [by rewrite (bind_Ok _ _ _ _ _ Hw1)|].
  split; [by rewrite (bind_Ok _ _ _ _ _ Hw2)|].
  assert (G1 : Get (<[K2:=v2]> (<[K1:=v1]> p)) K1 = v1).
  { rewrite Get_insert_ne by (intros ->; by apply Hne).
    apply Get_insert_eq. }
  assert (G2 : Get (<[K2:=v2]> (<[K1:=v1]> p)) K2 = v2)
    by apply Get_insert_eq.
  repeat split; try assumption.
  - by by_map Hma.
  - by by_map Hmb.
  - by by_map Hma.
  - by by_map Hmb.
  - intros Hr. by_map Hmb.
    by by_map Hma.
  - intros Hr. by_map Hma.
    by by_map Hmb.
Qed.

(** C2, as the code has it.  [withLayer(K, live)] applies [live] once, to
    the receiver [E] in the store as it is before the extension, and,
    when [live] returns [v], returns a new environment in which [K] reads
    [v] and every key other than [K] reads as in [E].  When [E] does not
    bind [K], that is every key of [E]; when it does, the constructor
    sees the old binding and the result overrides it. *)
Theorem withLayer_spec s E p K live v h1 w1 :
  env_map (heap s) E = Some p →
  allocates_only live →
  live E (heap s) (world s) = (Ok v, h1, w1) →
  ∃ E' s',
    withLayer E K live s = Some (Ok E', s')
    ∧ calls s' = calls s ++ [E]
    ∧ world s' = w1
    ∧ h1 `prefix_of` heap s'
    ∧ (length h1 ≤ E')%nat
    ∧ env_map (heap s') E' = Some (<[ K := v ]> p)
    ∧ reads s' E' K v
    ∧ (∀ K' u, K' ≠ K → reads s E K' u → reads s' E' K' u)
    ∧ (p !! K = None → ∀ K' u, p !! K' = Some u → reads s' E' K' u).
Proof.
  intros Hp Ha Hl.
  pose proof (allocates_only_run _ _ _ _ _ _ _ Ha Hl) as Hpre.
  rewrite (withLayer_run _ _ _ _ _ _ _ Hl).
  destruct (with_spec (State h1 w1 (calls s ++ [E])) E p K v)
    as (E' & s' & Hw & Hh & Hwo & Hc & Hfresh & Hm).
  { simpl. by apply (env_map_prefix (heap s)). }
  exists E', s'. simpl in *.
  assert (Hother : ∀ K' u, K' ≠ K → reads s E K' u → reads s' E' K' u).
  { intros K' u Hne Hr. by_map Hp in Hr.
    by_map Hm. by rewrite Get_insert_ne. }
  repeat split; try assumption.
  - by_map Hm. by rewrite Get_insert_eq.
  - intros Hfree K' u Hu. apply Hother.
    + intros ->. congruence.
    + by_map Hp. unfold Get. by rewrite Hu.
Qed.

(** C3, as the code has it.  [consume(K, live)] applies [live] once, to
    the receiver [E], and, when [live] returns [v], returns a new
    environment whose map object has the single entry [K ↦ v] and whose
    declared key set is [{K}]: [K] reads [v], and every key other than
    [K] reads as it does in an object without own properties, whatever
    [E] bound it to. *)
Theorem consume_spec s E K live v h1 w1 (T : sig) (Vt : ty) :
  live E (heap s) (world s) = (Ok v, h1, w1) →
  ∃ E' s',
    consume E K live s = Some (Ok E', s')
    ∧ calls s' = calls s ++ [E]
    ∧ world s' = w1
    ∧ h1 `prefix_of` heap s'
    ∧ (length h1 ≤ E')%nat
    ∧ env_map (heap s') E' = Some {[ K := v ]}
    ∧ dom ({[ K := v ]} : gmap string V) = {[ K ]}
    ∧ keyof (consume_sig T K Vt) = {[ K ]}
    ∧ reads s' E' K v
    ∧ (∀ K', K' ≠ K →
         ({[ K := v ]} : gmap string V) !! K' = None
         ∧ get_sig (consume_sig T K Vt) K' = None
         ∧ reads s' E' K' (proto_get K')).
Proof.
  intros Hl. rewrite (consume_run _ _ _ _ _ _ _ Hl).
  eexists _, _. split; [reflexivity|]. simpl.
  assert (Hm : env_map (h1 ++ [Plain {[K := v]}; Instance (length h1)])
                 (S (length h1)) = Some ({[K := v]} : gmap string V))
    by apply env_map_fresh.
  repeat split; try done.
  - apply prefix_app_r. reflexivity.
  - lia.
  - apply dom_singleton_L.
  - apply (reads_Get (State _ w1 _) _ _ _ _ Hm).
    unfold Get. by rewrite lookup_singleton_eq.
  - by apply lookup_singleton_ne.
  - unfold get_sig, consume_sig. simpl. by rewrite decide_False.
  - apply (reads_Get (State _ w1 _) _ _ _ _ Hm).
    unfold Get. by rewrite lookup_singleton_ne.
Qed.

Lemma reads_prefix s s' E p K v :
  env_map (heap s) E = Some p →
  heap s `prefix_of` heap s' →
  reads s E K v → reads s' E K v.
Proof.
  intros Hp Hpre Hr. by_map Hp in Hr.
  apply (reads_Get _ _ p); [|exact Hr].
  by apply (env_map_prefix (heap s)).
Qed.

(** C6. No operation mutates an existing environment.  Whatever
    environment [this] the operation is applied to ([E] itself or
    another), [with], [withLayer] and [consume] finish in a store that
    extends the one they started in, so every environment [E] keeps its
    map object and [E.get(K)] returns after the operation what it
    returned before -- also when the layer constructor throws.  The same
    holds of [build], and [get] leaves the whole state as it is. *)
Theorem operations_do_not_mutate s E p this q K' value live :
  env_map (heap s) E = Some p →
  env_map (heap s) this = Some q →
  allocates_only live →
  (∃ r s', with_ this K' value s = Some (r, s')
           ∧ heap s `prefix_of` heap s'
           ∧ env_map (heap s') E = Some p
           ∧ ∀ K v, reads s E K v → reads s' E K v)
  ∧ (∃ r s', withLayer this K' live s = Some (r, s')
             ∧ heap s `prefix_of` heap s'
             ∧ env_map (heap s') E = Some p
             ∧ ∀ K v, reads s E K v → reads s' E K v)
  ∧ (∃ r s', consume this K' live s = Some (r, s')
             ∧ heap s `prefix_of` heap s'
             ∧ env_map (heap s') E = Some p
             ∧ ∀ K v, reads s E K v → reads s' E K v)
  ∧ (∃ r s', build s = Some (r, s')
             ∧ heap s `prefix_of` heap s'
             ∧ env_map (heap s') E = Some p
             ∧ ∀ K v, reads s E K v → reads s' E K v)
  ∧ (∃ r, get this K' s = Some (r, s)).
Proof.
  intros Hp Hq Ha.
  assert (Hkeep : ∀ s', heap s `prefix_of` heap s' →
            heap s `prefix_of` heap s'
            ∧ env_map (heap s') E = Some p
            ∧ ∀ K v, reads s E K v → reads s' E K v).
  { intros s' Hpre. split; [assumption|]. split.
    - by apply (env_map_prefix (heap s)).
    - intros K v. by apply (reads_prefix _ _ _ p). }
  destruct (live this (heap s) (world s)) as [[r h1] w1] eqn:Hl.
  pose proof (allocates_only_run _ _ _ _ _ _ _ Ha Hl) as Hpre.
  split; [|split; [|split; [|split]]].
  - destruct (with_spec s this q K' value Hq) as (E' & s' & Hw & Hh & _).
    exists (Ok E'), s'. split; [assumption|]. by apply Hkeep.
  - rewrite (withLayer_run _ _ _ _ _ _ _ Hl). destruct r as [v|x].
    + destruct (with_spec (State h1 w1 (calls s ++ [this])) this q K' v)
        as (E' & s' & Hw & Hh & _).
      { simpl. by apply (env_map_prefix (heap s)). }
      exists (Ok E'), s'. split; [assumption|]. apply Hkeep.
      simpl in Hh. by transitivity h1.
    + eexists _, _. split; [reflexivity|]. by apply Hkeep.
  - rewrite (consume_run _ _ _ _ _ _ _ Hl). destruct r as [v|x].
    + eexists _, _. split; [reflexivity|]. apply Hkeep. simpl.
      transitivity h1; [assumption|]. apply prefix_app_r. reflexivity.
    + eexists _, _. split; [reflexivity|]. by apply Hkeep.
  - rewrite build_run. eexists _, _. split; [reflexivity|]. apply Hkeep.
    simpl. apply prefix_app_r. reflexivity.
  - eexists. apply (get_run _ _ _ _ Hq).
Qed.

(** C9. A failure of the layer constructor reaches the caller of
    [withLayer] and of [consume] as it was thrown, in the state the
    constructor left, and nothing else makes them fail: they throw [x]
    exactly when the constructor does, and return an environment exactly
    when it returns a value. *)
Theorem layer_failure_propagates s E p K live r h1 w1 :
  env_map (heap s) E = Some p →
  allocates_only live →
  live E (heap s) (world s) = (r, h1, w1) →
  (∀ x, r = Throw x →
     withLayer E K live s = Some (Throw x, State h1 w1 (calls s ++ [E]))
     ∧ consume E K live s = Some (Throw x, State h1 w1 (calls s ++ [E])))
  ∧ (∀ x s', withLayer E K live s = Some (Throw x, s') → r = Throw x)
  ∧ (∀ x s', consume E K live s = Some (Throw x, s') → r = Throw x)
  ∧ (∀ v, r = Ok v →
       (∃ E' s', withLayer E K live s = Some (Ok E', s'))
       ∧ (∃ E' s', consume E K live s = Some (Ok E', s')))
  ∧ is_Some (withLayer E K live s)
  ∧ is_Some (consume E K live s).
Proof.
  intros Hp Ha Hl.
  pose proof (allocates_only_run _ _ _ _ _ _ _ Ha Hl) as Hpre.
  rewrite (withLayer_run _ _ _ _ _ _ _ Hl), (consume_run _ _ _ _ _ _ _ Hl).
  destruct r as [v|x].
  - destruct (with_spec (State h1 w1 (calls s ++ [E])) E p K v)
      as (E' & s' & Hw & _).
    { simpl. by apply (env_map_prefix (heap s)). }
    rewrite Hw. repeat split; try discriminate; eauto.
  - repeat split; try discriminate; eauto; congruence.
Qed.

(** C10. [withLayer(K, live)] is [with(K, v)] for the value [v] that
    [live] returns on the receiver: it is [with] run in the state the
    constructor left, and the environment it returns has the same map
    entries, hence the same [get] for every key, as the one [with(K, v)]
    returns from the state before. *)
Theorem withLayer_is_with_of_layer_result s E p K live v h1 w1 :
  env_map (heap s) E = Some p →
  allocates_only live →
  live E (heap s) (world s) = (Ok v, h1, w1) →
  withLayer E K live s = with_ E K v (State h1 w1 (calls s ++ [E]))
  ∧ ∃ Ea sa Eb sb q,
      withLayer E K live s = Some (Ok Ea, sa)
      ∧ with_ E K v s = Some (Ok Eb, sb)
      ∧ env_map (heap sa) Ea = Some q
      ∧ env_map (heap sb) Eb = Some q
      ∧ ∀ K' u, reads sa Ea K' u ↔ reads sb Eb K' u.
Proof.
  intros Hp Ha Hl.
  pose proof (allocates_only_run _ _ _ _ _ _ _ Ha Hl) as Hpre.
  split; [apply (withLayer_run _ _ _ _ _ _ _ Hl)|].
  rewrite (withLayer_run _ _ _ _ _ _ _ Hl).
  destruct (with_spec (State h1 w1 (calls s ++ [E])) E p K v)
    as (Ea & sa & Hwa & _ & _ & _ & _ & Hma).
  { simpl. by apply (env_map_prefix (heap s)). }
  destruct (with_spec s E p K v Hp) as (Eb & sb & Hwb & _ & _ & _ & _ & Hmb).
  exists Ea, sa, Eb, sb, (<[K:=v]> p).
  repeat split; try assumption.
  - intros Hr. by_map Hmb.
    by by_map Hma.
  - intros Hr. by_map Hma.
    by by_map Hmb.
Qed.

(** *** Further facts: edge cases, key sets, composition *)

Local Abbreviation with_all := (with_all (X:=X)).

(** X1. A key that the environment does not bind is no error at run time:
    [get] returns what [Object.prototype] gives for the name and leaves the
    state as it is, exactly as the empty environment of [build] does. *)
Theorem get_unbound_key s E p K :
  env_map (heap s) E = Some p →
  p !! K = None →
  get E K s = Some (Ok (proto_get K), s)
  ∧ ∃ s', (let* e := build in get e K) s = Some (Ok (proto_get K), s').
Proof.
  intros Hp Hk. split.
  - pose proof (get_run s E p K Hp) as Hg. unfold reads, Get in Hg.
    by rewrite Hk in Hg.
  - rewrite (bind_Ok _ _ _ _ _ (build_run s)). eexists.
    pose proof (get_run (set_heap s (heap s ++ [Plain ∅; Instance (length (heap s))]))
                  (S (length (heap s))) ∅ K (env_map_fresh _ _)) as Hg.
    unfold reads, Get in Hg. rewrite lookup_empty in Hg. exact Hg.
Qed.

(** X2. [with(K, value)] adds at most the key [K]: the keys of the result
    are those of the receiver and [K], one entry more when the receiver
    did not bind [K], and the same number of entries when it did. *)
Theorem with_key_set s E p K value :
  env_map (heap s) E = Some p →
  ∃ E' s' p',
    with_ E K value s = Some (Ok E', s')
    ∧ env_map (heap s') E' = Some p'
    ∧ dom p' = dom p ∪ {[ K ]}
    ∧ (p !! K = None → size p' = S (size p))
    ∧ (is_Some (p !! K) → size p' = size p).
Proof.
  intros Hp.
  destruct (with_spec s E p K value Hp) as (E' & s' & Hw & _ & _ & _ & _ & Hm).
  exists E', s', (<[K:=value]> p).
  split; [exact Hw|]. split; [exact Hm|]. split; [|split].
  - by rewrite dom_insert_L, (comm_L (∪)).
  - intros Hk. by apply map_size_insert_None.
  - intros Hk. by apply map_size_insert_Some.
Qed.


(** X4. Rebinding a key to the value it already has changes no content
    but still makes a new environment: the result has the entries of the
    receiver, and it is an instance that was not in the store before, so
    it is not the receiver. *)
Theorem with_same_value s E p K v :
  env_map (heap s) E = Some p →
  p !! K = Some v →
  ∃ E' s',
    with_ E K v s = Some (Ok E', s')
    ∧ env_map (heap s') E' = Some p
    ∧ env_map (heap s') E = Some p
    ∧ heap s !! E' = None
    ∧ E' ≠ E.
Proof.
  intros Hp Hk.
  destruct (with_spec s E p K v Hp) as (E' & s' & Hw & Hpre & _ & _ & Hf & Hm).
  exists E', s'. rewrite (insert_id _ _ _ Hk) in Hm.
  assert (Hnone : heap s !! E' = None) by (apply lookup_ge_None; lia).
  repeat split; try assumption.
  - by apply (env_map_prefix (heap s)).
  - intros ->. apply env_map_Some in Hp as (l & He & _). congruence.
Qed.

(** X5. [consume] does not look at the receiver's entries: when the
    constructor returns [v], [E.consume(K, live)] has the contents of
    [Env.build().with(K, v)], whatever [E] holds. *)
Theorem consume_is_with_on_empty s E K live v h1 w1 :
  live E (heap s) (world s) = (Ok v, h1, w1) →
  ∃ Ea sa Eb sb q,
    consume E K live s = Some (Ok Ea, sa)
    ∧ (let* e := build in with_ e K v) s = Some (Ok Eb, sb)
    ∧ env_map (heap sa) Ea = Some q
    ∧ env_map (heap sb) Eb = Some q
    ∧ ∀ K' u, reads sa Ea K' u ↔ reads sb Eb K' u.
Proof.
  intros Hl. rewrite (consume_run _ _ _ _ _ _ _ Hl).
  rewrite (bind_Ok _ _ _ _ _ (build_run s)).
  destruct (with_spec (set_heap s (heap s ++ [Plain ∅; Instance (length (heap s))]))
              (S (length (heap s))) ∅ K v (env_map_fresh _ _))
    as (Eb & sb & Hw & _ & _ & _ & _ & Hmb).
  rewrite insert_empty in Hmb.
  set (sa := State (h1 ++ [Plain {[K := v]}; Instance (length h1)])
                   w1 (calls s ++ [E])).
  assert (Hma : env_map (heap sa) (S (length h1))
                = Some ({[K := v]} : gmap string V))
    by apply env_map_fresh.
  exists (S (length h1)), sa, Eb, sb, {[K := v]}.
  split; [reflexivity|]. split; [exact Hw|].
  split; [exact Hma|]. split; [exact Hmb|].
  intros K' u. split; intros Hr.
  - by_map Hmb. by by_map Hma in Hr.
  - by_map Hma. by by_map Hmb in Hr.
Qed.

Lemma bind_all_cons p k v rest :
  bind_all p ((k, v) :: rest) = bind_all (<[ k := v ]> p) rest.
Proof. reflexivity. Qed.

Lemma bind_all_notin p kvs K :
  K ∉ kvs.*1 → bind_all p kvs !! K = p !! K.
Proof.
  revert p. induction kvs as [|[k v] rest IH]; intros p Hk; [reflexivity|].
  simpl in Hk. apply not_elem_of_cons in Hk as [Hne Hrest].
  rewrite bind_all_cons, IH by assumption.
  apply lookup_insert_ne. congruence.
Qed.

Lemma bind_all_last p l1 l2 K v :
  K ∉ l2.*1 → bind_all p (l1 ++ (K, v) :: l2) !! K = Some v.
Proof.
  intros Hk. unfold bind_all. rewrite foldl_app. simpl.
  fold (bind_all (<[K:=v]> (foldl (λ m kv, <[kv.1:=kv.2]> m) p l1)) l2).
  rewrite bind_all_notin by assumption. apply lookup_insert_eq.
Qed.

Lemma dom_bind_all p kvs :
  dom (bind_all p kvs) = dom p ∪ list_to_set kvs.*1.
Proof.
  revert p. induction kvs as [|[k v] rest IH]; intros p.
  - simpl. by rewrite (right_id_L ∅ (∪)).
  - rewrite bind_all_cons, IH, dom_insert_L. simpl.
    by rewrite (comm_L (∪) {[k]} (dom p)), (assoc_L (∪)).
Qed.

Lemma with_all_run kvs : ∀ s E p,
  env_map (heap s) E = Some p →
  ∃ E' s',
    with_all E kvs s = Some (Ok E', s')
    ∧ heap s `prefix_of` heap s'
    ∧ world s' = world s
    ∧ calls s' = calls s
    ∧ env_map (heap s') E' = Some (bind_all p kvs).
Proof.
  induction kvs as [|[k v] rest IH]; intros s E p Hp.
  - exists E, s. repeat split; try done.
  - destruct (with_spec s E p k v Hp)
      as (E1 & s1 & Hw & Hpre & Hwo & Hc & _ & Hm).
    destruct (IH s1 E1 _ Hm) as (E' & s' & Hr & Hpre' & Hwo' & Hc' & Hm').
    exists E', s'. simpl. rewrite (bind_Ok _ _ _ _ _ Hw).
    repeat split; try assumption; try congruence.
    by transitivity (heap s1).
Qed.

(** X6. A chain of [with] calls is one update per call, from left to
    right: the result holds the receiver's keys and the keys of the chain,
    each key of the chain reads the value of its last occurrence, every
    key that is not in the chain reads as in the receiver, and the
    receiver itself is as before; no constructor is invoked. *)
Theorem with_all_spec s E p kvs :
  env_map (heap s) E = Some p →
  ∃ E' s',
    with_all E kvs s = Some (Ok E', s')
    ∧ env_map (heap s') E' = Some (bind_all p kvs)
    ∧ dom (bind_all p kvs) = dom p ∪ list_to_set kvs.*1
    ∧ (∀ l1 l2 K v, kvs = l1 ++ (K, v) :: l2 → K ∉ l2.*1 → reads s' E' K v)
    ∧ (∀ K u, K ∉ kvs.*1 → reads s E K u → reads s' E' K u)
    ∧ env_map (heap s') E = Some p
    ∧ world s' = world s
    ∧ calls s' = calls s.
Proof.
  intros Hp.
  destruct (with_all_run kvs s E p Hp) as (E' & s' & Hr & Hpre & Hwo & Hc & Hm).
  exists E', s'. split; [exact Hr|]. split; [exact Hm|].
  split; [apply dom_bind_all|]. split; [|split; [|split; [|by split]]].
  - intros l1 l2 K v -> Hk. by_map Hm.
    unfold Get. by rewrite bind_all_last.
  - intros K u Hk Hu. by_map Hp in Hu. by_map Hm.
    unfold Get in *. by rewrite bind_all_notin.
  - by apply (env_map_prefix (heap s)).
Qed.

(** X7. Layers of a chain run in the order of the chain, each on the
    environment the previous step returned: in
    [E.withLayer(K1, f).withLayer(K2, g)], [g] is applied to an environment
    that binds [K1] to the result of [f], after [f]; when [f] throws, [g]
    is not invoked and the chain throws what [f] threw. *)
Theorem withLayer_chain s E p K1 K2 f (g : Layer V X W) r1 h1 w1 :
  env_map (heap s) E = Some p →
  allocates_only f →
  f E (heap s) (world s) = (r1, h1, w1) →
  match r1 with
  | Throw x =>
      (let* e1 := withLayer E K1 f in withLayer e1 K2 g) s
      = Some (Throw x, State h1 w1 (calls s ++ [E]))
  | Ok v1 =>
      ∃ E1 s1,
        withLayer E K1 f s = Some (Ok E1, s1)
        ∧ env_map (heap s1) E1 = Some (<[ K1 := v1 ]> p)
        ∧ world s1 = w1
        ∧ ∀ r2 h2 w2,
            allocates_only g →
            g E1 (heap s1) (world s1) = (r2, h2, w2) →
            ∃ r s2,
              (let* e1 := withLayer E K1 f in withLayer e1 K2 g) s
              = Some (r, s2)
              ∧ calls s2 = calls s ++ [E; E1]
              ∧ world s2 = w2
              ∧ match r2 with
                | Throw x => r = Throw x
                | Ok v2 =>
                    ∃ E2, r = Ok E2
                          ∧ env_map (heap s2) E2
                            = Some (<[ K2 := v2 ]> (<[ K1 := v1 ]> p))
                end
  end.
Proof.
  intros Hp Ha Hf.
  pose proof (allocates_only_run _ _ _ _ _ _ _ Ha Hf) as Hpre.
  pose proof (withLayer_run s E K1 f r1 h1 w1 Hf) as Hrun.
  destruct r1 as [v1|x].
  - destruct (with_spec (State h1 w1 (calls s ++ [E])) E p K1 v1)
      as (E1 & s1 & Hw & _ & Hwo & Hc & _ & Hm).
    { simpl. by apply (env_map_prefix (heap s)). }
    rewrite Hw in Hrun. simpl in Hwo, Hc.
    exists E1, s1. split; [exact Hrun|]. split; [exact Hm|].
    split; [exact Hwo|]. intros r2 h2 w2 Hag Hg.
    pose proof (allocates_only_run _ _ _ _ _ _ _ Hag Hg) as Hpre2.
    rewrite (bind_Ok _ _ _ _ _ Hrun), (withLayer_run _ _ _ _ _ _ _ Hg).
    rewrite Hc, <- app_assoc. simpl. destruct r2 as [v2|x].
    + destruct (with_spec (State h2 w2 (calls s ++ [E; E1])) E1
                  (<[K1:=v1]> p) K2 v2)
        as (E2 & s2 & Hw2 & _ & Hwo2 & Hc2 & _ & Hm2).
      { simpl. by apply (env_map_prefix (heap s1)). }
      exists (Ok E2), s2. rewrite Hw2. repeat split; try assumption.
      exists E2. by split.
    + eexists _, _. repeat split.
  - unfold bind at 1. by rewrite Hrun.
Qed.

Lemma store_ok_extend h h' :
  store_ok h →
  (∀ i l, h' !! i = Some (Instance l) → ∃ p, (h ++ h') !! l = Some (Plain p)) →
  store_ok (h ++ h').
Proof.
  intros Hok Hnew e l [Hl|[_ Hl]]%lookup_app_Some.
  - destruct (Hok e l Hl) as [p Hp]. exists p. by apply lookup_app_l_Some.
  - by apply (Hnew _ _ Hl).
Qed.

Lemma store_ok_alloc2 h p :
  store_ok h → store_ok (h ++ [Plain p; Instance (length h)]).
Proof.
  intros Hok. apply store_ok_extend; [assumption|].
  intros [|[|i]] l Hl; simpl in Hl; try discriminate.
  injection Hl as <-. exists p.
  rewrite lookup_app_r by lia.
  replace (length h - length h) with 0 by lia. reflexivity.
Qed.

Lemma store_ok_alloc3 h c p :
  (∀ l, c ≠ Instance l) →
  store_ok h → store_ok (h ++ [c; Plain p; Instance (S (length h))]).
Proof.
  intros Hc Hok. apply store_ok_extend; [assumption|].
  intros [|[|[|i]]] l Hl; simpl in Hl; try discriminate.
  - injection Hl as ->. by destruct (Hc l).
  - injection Hl as <-. exists p.
    rewrite lookup_app_r by lia.
    replace (S (length h) - length h) with 1 by lia. reflexivity.
Qed.

(** X8. The field [m] of an [Env] instance always refers to a plain
    object.  In a store of that shape, [build] and, on any [Env] instance,
    [with], [withLayer] and [consume] run without a bad dereference, leave
    a store of that shape, and what they return is such an instance again;
    [get] on it returns a value and throws nothing. *)
Theorem store_ok_kept s this l K value live :
  store_ok (heap s) →
  heap s !! this = Some (Instance l) →
  allocates_only live →
  keeps_store_ok live →
  (∃ E' s', build s = Some (Ok E', s')
            ∧ store_ok (heap s') ∧ is_Some (env_map (heap s') E'))
  ∧ (∃ E' s', with_ this K value s = Some (Ok E', s')
              ∧ store_ok (heap s') ∧ is_Some (env_map (heap s') E'))
  ∧ (∃ r s', withLayer this K live s = Some (r, s')
             ∧ store_ok (heap s')
             ∧ ∀ E', r = Ok E' → is_Some (env_map (heap s') E'))
  ∧ (∃ r s', consume this K live s = Some (r, s')
             ∧ store_ok (heap s')
             ∧ ∀ E', r = Ok E' → is_Some (env_map (heap s') E'))
  ∧ (∃ v, get this K s = Some (Ok v, s)).
Proof.
  intros Hok Hthis Ha Hk.
  destruct (Hok this l Hthis) as [p Hl].
  assert (Hp : env_map (heap s) this = Some p)
    by (apply env_map_Some; eauto).
  destruct (live this (heap s) (world s)) as [[r h1] w1] eqn:Hlive.
  pose proof (allocates_only_run _ _ _ _ _ _ _ Ha Hlive) as Hpre.
  assert (Hok1 : store_ok h1).
  { specialize (Hk this (heap s) (world s) Hok). by rewrite Hlive in Hk. }
  assert (Hp1 : env_map h1 this = Some p)
    by (by apply (env_map_prefix (heap s))).
  split; [|split; [|split; [|split]]].
  - rewrite build_run. eexists _, _. split; [reflexivity|]. simpl.
    split; [by apply store_ok_alloc2|]. rewrite env_map_fresh. eauto.
  - rewrite (with_run _ _ _ _ _ Hp). eexists _, _. split; [reflexivity|].
    simpl. split; [by apply store_ok_alloc3|].
    rewrite env_map_extended. eauto.
  - rewrite (withLayer_run _ _ _ _ _ _ _ Hlive). destruct r as [v|x].
    + rewrite (with_run (State h1 w1 (calls s ++ [this])) _ _ _ _ Hp1).
      eexists _, _. split; [reflexivity|]. simpl.
      split; [by apply store_ok_alloc3|].
      intros E' [= <-]. rewrite env_map_extended. eauto.
    + eexists _, _. split; [reflexivity|]. split; [assumption|].
      discriminate.
  - rewrite (consume_run _ _ _ _ _ _ _ Hlive). destruct r as [v|x].
    + eexists _, _. split; [reflexivity|]. simpl.
      split; [by apply store_ok_alloc2|].
      intros E' [= <-]. rewrite env_map_fresh. eauto.
    + eexists _, _. split; [reflexivity|]. split; [assumption|].
      discriminate.
  - eexists. apply (get_run _ _ _ _ Hp).
Qed.

End RegistryFacts.

(** ** Facts about the type level *)

Lemma index_keyof T K : is_Some (index T K) ↔ K ∈ keyof T.
Proof.
  induction T as [|K' Vt|a IHa b IHb]; simpl.
  - split; [by intros [? ?]|set_solver].
  - destruct (decide (K' = K)) as [->|Hne].
    + split; [set_solver|eauto].
    + split; [by intros [? ?]|set_solver].
  - rewrite elem_of_union, <- IHa, <- IHb.
    destruct (index a K), (index b K); split; eauto.
    intros [[? ?]|[? ?]]; discriminate.
Qed.

Lemma keyof_with_sig T K Vt : keyof (with_sig T K Vt) = keyof T ∪ {[ K ]}.
Proof. reflexivity. Qed.

(** Binding a key the signature does not have declares it at the type of
    the value. *)
Lemma with_sig_fresh T K Vt :
  K ∉ keyof T → get_sig (with_sig T K Vt) K = Some Vt.
Proof.
  intros Hk. unfold get_sig, with_sig. simpl.
  destruct (index T K) eqn:Hi.
  - exfalso. apply Hk, index_keyof. eauto.
  - by rewrite decide_True.
Qed.

(** Binding a key the signature has declares it at the intersection of its
    old type and the type of the value. *)
Lemma with_sig_bound T K Vt t0 :
  index T K = Some t0 → get_sig (with_sig T K Vt) K = Some (TInter t0 Vt).
Proof.
  intros Hi. unfold get_sig, with_sig. simpl.
  rewrite Hi. by rewrite decide_True.
Qed.

Lemma with_sig_other T K K' Vt :
  K ≠ K' → get_sig (with_sig T K Vt) K' = get_sig T K'.
Proof.
  intros Hne. unfold get_sig, with_sig. simpl.
  rewrite decide_False by assumption. by destruct (index T K').
Qed.

(** For a key the signature does not have, [with] keeps the promise of the
    declared signature. *)
Lemma honours_with_fresh p T K v Vt :
  honours p T → K ∉ keyof T → has_type v Vt = true →
  honours (<[ K := v ]> p) (with_sig T K Vt).
Proof.
  intros Hp Hk Hv K' t Hi. destruct (decide (K = K')) as [<-|Hne].
  - fold (get_sig (with_sig T K Vt) K) in Hi.
    rewrite with_sig_fresh in Hi by assumption. injection Hi as <-.
    exists v. by rewrite lookup_insert_eq.
  - fold (get_sig (with_sig T K Vt) K') in Hi.
    rewrite with_sig_other in Hi by assumption.
    destruct (Hp K' t Hi) as (u & Hu & Ht). exists u.
    by rewrite lookup_insert_ne.
Qed.

(** No value is both a number and a string. *)
Lemma number_and_string_empty v : has_type v (TInter TNumber TString) = false.
Proof. by destruct v. Qed.

(** ** The concrete instance *)

Section DemoFacts.

Import Demo.

Lemma env_a_run : env_a s0 = Some (Ok E_a, s_a).
Proof. vm_compute. reflexivity. Qed.

Lemma env_ax_run : env_ax s0 = Some (Ok E_ax, s_ax).
Proof. vm_compute. reflexivity. Qed.

Lemma env_map_E_a : env_map (heap s_a) E_a = Some {[ "a" := JNumber 1 ]}.
Proof. reflexivity. Qed.

Lemma env_map_E_ax :
  env_map (heap s_ax) E_ax
  = Some (<[ "x" := JNumber 99 ]> {[ "a" := JNumber 1 ]}).
Proof. reflexivity. Qed.

Lemma get_state (this : loc) key (s : state jsval nat) r s' :
  get (X:=string) object_prototype this key s = Some (r, s') → s' = s.
Proof.
  unfold get, bind, read_m, own_props, ret.
  destruct (heap s !! this) as [[q|l]|]; try discriminate.
  destruct (heap s !! l) as [[q|l']|]; try discriminate.
  congruence.
Qed.

(** A constructor whose body leaves the store as it is allocates only. *)
Lemma layer_of_allocates_only (body : loc → MJ jsval) :
  (∀ env s r s', body env s = Some (r, s') → heap s' = heap s) →
  allocates_only (layer_of body).
Proof.
  intros Hb env h w. unfold layer_of.
  destruct (body env (State h w [])) as [[r s']|] eqn:Hr; simpl.
  - by rewrite (Hb _ _ _ _ Hr).
  - reflexivity.
Qed.

Lemma get_then_allocates_only key (f : jsval → jsval) :
  allocates_only
    (layer_of (λ env, let* a := get object_prototype env key in ret (f a))).
Proof.
  apply layer_of_allocates_only. intros env s r s'. unfold bind.
  destruct (get object_prototype env key s) as [[[a|x] s1]|] eqn:Hg;
    try discriminate.
  - apply get_state in Hg. unfold ret. congruence.
  - apply get_state in Hg. congruence.
Qed.

Lemma succ_a_allocates_only : allocates_only succ_a.
Proof. apply get_then_allocates_only. Qed.

Lemma double_a_allocates_only : allocates_only double_a.
Proof. apply get_then_allocates_only. Qed.

Lemma same_a_allocates_only : allocates_only same_a.
Proof.
  apply layer_of_allocates_only. intros env s r s' Hg.
  by rewrite (get_state _ _ _ _ _ Hg).
Qed.

Lemma failing_allocates_only : allocates_only failing.
Proof. intros env h w. reflexivity. Qed.

(** C5, at [Env.build().with("a", 1).with("a", "x")].  The map object
    holds the new value, the string, under ["a"]; the declared type of
    ["a"] is not [string] but [number & string], the old and the new
    type merged, a type no value has: the declared signature promises of
    ["a"] what the map object does not hold. *)
Theorem rebind_declares_intersection :
  get_sig rebind_a_sig "a" = Some (TInter TNumber TString)
  ∧ get_sig rebind_a_sig "a" ≠ Some TString
  ∧ (∃ s', rebind_a s0 = Some (Ok (JString "x"), s'))
  ∧ has_type (JString "x") TString = true
  ∧ has_type (JString "x") (TInter TNumber TString) = false
  ∧ (∀ v, has_type v (TInter TNumber TString) = false)
  ∧ (∀ p, ¬ honours p rebind_a_sig).
Proof.
  split; [reflexivity|]. split; [discriminate|].
  split; [eexists; vm_compute; reflexivity|].
  split; [reflexivity|]. split; [reflexivity|].
  split; [apply number_and_string_empty|].
  intros p Hp. destruct (Hp "a" (TInter TNumber TString) eq_refl)
    as (v & _ & Hv).
  by rewrite number_and_string_empty in Hv.
Qed.

(** C2 as stated fails where [E] already binds [K].  With [E] binding
    ["a"] to [1], [E.withLayer("a", env => env.get("a") + 1)] hands the
    constructor an environment that binds ["a"], and ["a"], a key of
    [E], reads [2] in the result, not its value [1] from [E]. *)
Lemma withLayer_rebind_counterexample :
  ∃ E' s' p,
    env_map (heap s_a) E_a = Some p
    ∧ p !! "a" = Some (JNumber 1)
    ∧ withLayer E_a "a" succ_a s_a = Some (Ok E', s')
    ∧ readsJ s_a E_a "a" (JNumber 1)
    ∧ readsJ s' E' "a" (JNumber 2)
    ∧ ¬ readsJ s' E' "a" (JNumber 1)
    ∧ ¬ (p !! "a" = None)
    ∧ ¬ (∀ K' u, p !! K' = Some u → readsJ s' E' K' u).
Proof.
  eexists _, _, _. split; [reflexivity|]. split; [reflexivity|].
  split; [vm_compute; reflexivity|].
  split; [vm_compute; reflexivity|].
  split; [vm_compute; reflexivity|].
  assert (Hno : ¬ readsJ
                  (State (heap s_a ++
                          [Plain {[ "a" := JNumber 2 ]};
                           Plain (<[ "a" := JNumber 2 ]> {[ "a" := JNumber 1 ]});
                           Instance 6]) 0 [E_a]) 7 "a" (JNumber 1)).
  { intros Hr. vm_compute in Hr. discriminate. }
  split; [exact Hno|]. split; [discriminate|].
  intros Hall. apply Hno, Hall. reflexivity.
Qed.

(** C3 as stated fails where [E] already binds [K].  With [E] binding
    ["a"] to [1], [E.consume("a", env => env.get("a"))] returns an
    environment from which ["a"], a key that was present in [E], is
    retrievable, with the value it had in [E]. *)
Lemma consume_own_key_counterexample :
  ∃ E' s' p q,
    env_map (heap s_a) E_a = Some p
    ∧ consume E_a "a" same_a s_a = Some (Ok E', s')
    ∧ env_map (heap s') E' = Some q
    ∧ p !! "a" = Some (JNumber 1)
    ∧ q !! "a" = Some (JNumber 1)
    ∧ readsJ s' E' "a" (JNumber 1)
    ∧ ¬ (∀ K', is_Some (p !! K') → q !! K' = None).
Proof.
  eexists _, _, _, _. split; [reflexivity|].
  split; [vm_compute; reflexivity|].
  split; [reflexivity|]. split; [reflexivity|]. split; [reflexivity|].
  split; [vm_compute; reflexivity|].
  intros Hall. specialize (Hall "a" (mk_is_Some _ _ eq_refl)).
  discriminate.
Qed.

(** The example of [withLayer]: from [E] binding ["a"] to [1],
    [E.withLayer("b", env => env.get("a") + 1)] reads [2] under ["b"] and
    [1] under ["a"]. *)
Lemma withLayer_spec_witness :
  env_map (heap s_a) E_a = Some {[ "a" := JNumber 1 ]}
  ∧ allocates_only succ_a
  ∧ succ_a E_a (heap s_a) (world s_a) = (Ok (JNumber 2), heap s_a, 0)
  ∧ ∃ E' s',
      withLayer E_a "b" succ_a s_a = Some (Ok E', s')
      ∧ calls s' = [E_a]
      ∧ readsJ s' E' "b" (JNumber 2)
      ∧ readsJ s' E' "a" (JNumber 1).
Proof.
  split; [reflexivity|]. split; [exact succ_a_allocates_only|].
  split; [reflexivity|].
  destruct (withLayer_spec object_prototype s_a E_a {[ "a" := JNumber 1 ]}
              "b" succ_a (JNumber 2) (heap s_a) 0
              env_map_E_a succ_a_allocates_only eq_refl)
    as (E' & s' & Hw & Hc & _ & _ & _ & _ & Hb & _ & Hfree).
  exists E', s'. split; [exact Hw|]. split; [exact Hc|].
  split; [exact Hb|]. apply Hfree; reflexivity.
Defined.

(** The example of [consume]: from [E] binding ["a"] to [1] and ["x"] to
    [99], [E.consume("b", env => env.get("a") * 2)] holds the single
    entry ["b" ↦ 2]; ["a"] and ["x"] read [undefined]. *)
Lemma consume_spec_witness :
  double_a E_ax (heap s_ax) (world s_ax) = (Ok (JNumber 2), heap s_ax, 0)
  ∧ ∃ E' s',
      consume E_ax "b" double_a s_ax = Some (Ok E', s')
      ∧ env_map (heap s') E' = Some {[ "b" := JNumber 2 ]}
      ∧ readsJ s' E' "b" (JNumber 2)
      ∧ readsJ s' E' "a" JUndefined
      ∧ readsJ s' E' "x" JUndefined.
Proof.
  split; [reflexivity|].
  destruct (consume_spec object_prototype s_ax E_ax "b" double_a
              (JNumber 2) (heap s_ax) 0 SEmpty TNumber eq_refl)
    as (E' & s' & Hc & _ & _ & _ & _ & Hm & _ & _ & Hb & Hother).
  exists E', s'. split; [exact Hc|]. split; [exact Hm|].
  split; [exact Hb|].
  split; [apply (Hother "a") | apply (Hother "x")]; discriminate.
Defined.

Lemma rebind_last_write_wins_witness :
  env_map (heap s_a) E_a = Some {[ "a" := JNumber 1 ]}
  ∧ ∃ E1 s1 E2 s2 p2,
      with_ (X:=string) E_a "a" (JNumber 2) s_a = Some (Ok E1, s1)
      ∧ with_ (X:=string) E1 "a" (JString "x") s1 = Some (Ok E2, s2)
      ∧ readsJ s2 E2 "a" (JString "x")
      ∧ env_map (heap s2) E2 = Some p2
      ∧ filter (λ kv : string * jsval, kv.1 = "a") (map_to_list p2)
        = [("a", JString "x")].
Proof.
  split; [reflexivity|].
  destruct (rebind_last_write_wins (X:=string) object_prototype s_a E_a
              {[ "a" := JNumber 1 ]} "a" (JNumber 2) (JString "x")
              env_map_E_a)
    as (E1 & s1 & E2 & s2 & p1 & p2 & H1 & H2 & Hr & _ & Hm & Hf & _).
  exists E1, s1, E2, s2, p2. repeat split; assumption.
Defined.

Lemma operations_do_not_mutate_witness :
  env_map (heap s_a) E_a = Some {[ "a" := JNumber 1 ]}
  ∧ allocates_only succ_a
  ∧ readsJ s_a E_a "a" (JNumber 1)
  ∧ (∃ r s', with_ (X:=string) E_a "a" (JNumber 7) s_a = Some (r, s')
             ∧ readsJ s' E_a "a" (JNumber 1))
  ∧ (∃ r s', withLayer E_a "a" succ_a s_a = Some (r, s')
             ∧ readsJ s' E_a "a" (JNumber 1))
  ∧ (∃ r s', consume E_a "a" succ_a s_a = Some (r, s')
             ∧ readsJ s' E_a "a" (JNumber 1)).
Proof.
  assert (Hr : readsJ s_a E_a "a" (JNumber 1)) by reflexivity.
  split; [reflexivity|]. split; [exact succ_a_allocates_only|].
  split; [exact Hr|].
  destruct (operations_do_not_mutate object_prototype s_a E_a
              {[ "a" := JNumber 1 ]} E_a {[ "a" := JNumber 1 ]}
              "a" (JNumber 7) succ_a
              env_map_E_a env_map_E_a succ_a_allocates_only)
    as ((r1 & s1 & H1 & _ & _ & K1) & (r2 & s2 & H2 & _ & _ & K2)
        & (r3 & s3 & H3 & _ & _ & K3) & _).
  split; [exists r1, s1; split; [exact H1 | by apply K1]|].
  split; [exists r2, s2; split; [exact H2 | by apply K2]|].
  exists r3, s3; split; [exact H3 | by apply K3].
Defined.

Lemma bind_keeps_other_keys_witness :
  "b" ≠ "c"
  ∧ env_map (heap s_a) E_a = Some {[ "a" := JNumber 1 ]}
  ∧ ∃ E1 s1 E2 s2,
      with_ (X:=string) E_a "b" (JNumber 2) s_a = Some (Ok E1, s1)
      ∧ with_ (X:=string) E1 "c" (JNumber 3) s1 = Some (Ok E2, s2)
      ∧ readsJ s2 E2 "b" (JNumber 2)
      ∧ readsJ s2 E2 "c" (JNumber 3)
      ∧ readsJ s2 E2 "a" (JNumber 1).
Proof.
  split; [discriminate|]. split; [reflexivity|].
  destruct (bind_keeps_other_keys (X:=string) object_prototype s_a E_a
              {[ "a" := JNumber 1 ]} "b" "c" (JNumber 2) (JNumber 3)
              ltac:(discriminate) env_map_E_a)
    as (E1 & s1 & E2 & s2 & H1 & H2 & Hb & Hc & Hbound & _).
  exists E1, s1, E2, s2. repeat split; try assumption.
  apply (Hbound "a" (JNumber 1)); [discriminate | discriminate | reflexivity].
Defined.

Lemma disjoint_binds_commute_witness :
  "b" ≠ "c"
  ∧ env_map (heap s_a) E_a = Some {[ "a" := JNumber 1 ]}
  ∧ ∃ Ea sa Eb sb q,
      (let* e := with_ E_a "b" (JNumber 2) in with_ (X:=string) e "c" (JNumber 3))
        s_a = Some (Ok Ea, sa)
      ∧ (let* e := with_ E_a "c" (JNumber 3) in with_ (X:=string) e "b" (JNumber 2))
          s_a = Some (Ok Eb, sb)
      ∧ env_map (heap sa) Ea = Some q
      ∧ env_map (heap sb) Eb = Some q.
Proof.
  split; [discriminate|]. split; [reflexivity|].
  destruct (disjoint_binds_commute (X:=string) object_prototype s_a E_a
              {[ "a" := JNumber 1 ]} "b" "c" (JNumber 2) (JNumber 3)
              ltac:(discriminate) env_map_E_a)
    as (Ea & sa & Eb & sb & q & Ha & Hb & Hma & Hmb & _).
  exists Ea, sa, Eb, sb, q. repeat split; assumption.
Defined.

Lemma layer_failure_propagates_witness :
  env_map (heap s_a) E_a = Some {[ "a" := JNumber 1 ]}
  ∧ allocates_only failing
  ∧ failing E_a (heap s_a) (world s_a) = (Throw "boom", heap s_a, 1)
  ∧ withLayer E_a "b" failing s_a
    = Some (Throw "boom", State (heap s_a) 1 [E_a])
  ∧ consume E_a "b" failing s_a
    = Some (Throw "boom", State (heap s_a) 1 [E_a]).
Proof.
  split; [reflexivity|]. split; [exact failing_allocates_only|].
  split; [reflexivity|].
  destruct (layer_failure_propagates s_a E_a
              {[ "a" := JNumber 1 ]} "b" failing (Throw "boom")
              (heap s_a) 1 env_map_E_a failing_allocates_only eq_refl)
    as (Hthrow & _).
  exact (Hthrow "boom" eq_refl).
Defined.

Lemma withLayer_is_with_of_layer_result_witness :
  env_map (heap s_a) E_a = Some {[ "a" := JNumber 1 ]}
  ∧ allocates_only succ_a
  ∧ succ_a E_a (heap s_a) (world s_a) = (Ok (JNumber 2), heap s_a, 0)
  ∧ ∃ Ea sa Eb sb q,
      withLayer E_a "b" succ_a s_a = Some (Ok Ea, sa)
      ∧ with_ (X:=string) E_a "b" (JNumber 2) s_a = Some (Ok Eb, sb)
      ∧ env_map (heap sa) Ea = Some q
      ∧ env_map (heap sb) Eb = Some q.
Proof.
  split; [reflexivity|]. split; [exact succ_a_allocates_only|].
  split; [reflexivity|].
  destruct (withLayer_is_with_of_layer_result object_prototype s_a E_a
              {[ "a" := JNumber 1 ]} "b" succ_a (JNumber 2) (heap s_a) 0
              env_map_E_a succ_a_allocates_only eq_refl)
    as (_ & Ea & sa & Eb & sb & q & Ha & Hb & Hma & Hmb & _).
  exists Ea, sa, Eb, sb, q. repeat split; assumption.
Defined.

(** *** Further facts: declared types and reading layers *)

(** X9. [with(K, v)] keeps the declared signature truthful whenever [v]
    has the declared type [Vt] and, if the signature already declares [K],
    also the type declared before; for a key the signature does not
    declare, the first condition is enough. *)
Theorem with_keeps_signature {X W} (s : state jsval W) E p (T : sig) K Vt v :
  env_map (heap s) E = Some p →
  honours p T →
  has_type v Vt = true →
  (∀ t0, index T K = Some t0 → has_type v t0 = true) →
  ∃ E' s' p',
    with_ (X:=X) E K v s = Some (Ok E', s')
    ∧ env_map (heap s') E' = Some p'
    ∧ honours p' (with_sig T K Vt).
Proof.
  intros Hp Hh Hv Hold.
  destruct (with_spec (X:=X) s E p K v Hp)
    as (E' & s' & Hw & _ & _ & _ & _ & Hm).
  exists E', s', (<[K:=v]> p). split; [exact Hw|]. split; [exact Hm|].
  intros K' t Hi. destruct (decide (K = K')) as [<-|Hne].
  - exists v. split; [apply lookup_insert_eq|].
    destruct (index T K) as [t0|] eqn:Ht.
    + rewrite (with_sig_bound T K Vt t0 Ht : index _ _ = _) in Hi.
      injection Hi as <-. simpl. by rewrite (Hold t0 eq_refl), Hv.
    + assert (Hfresh : K ∉ keyof T).
      { intros Hin%index_keyof. rewrite Ht in Hin. by destruct Hin. }
      rewrite (with_sig_fresh T K Vt Hfresh : index _ _ = _) in Hi.
      by injection Hi as <-.
  - rewrite (with_sig_other T K K' Vt Hne : index _ _ = _) in Hi.
    destruct (Hh K' t Hi) as (u & Hu & Ht). exists u.
    by rewrite lookup_insert_ne.
Qed.

(** For an environment whose map object is as its signature declares,
    [get] of a declared key returns an own entry of the map object, of the
    declared type [T[K]]. *)
Lemma get_declared_key {X W} (proto : string → jsval)
    (s : state jsval W) E p (T : sig) K t :
  env_map (heap s) E = Some p →
  honours p T →
  get_sig T K = Some t →
  ∃ v,
    get (X:=X) proto E K s = Some (Ok v, s)
    ∧ p !! K = Some v
    ∧ has_type v t = true.
Proof.
  intros Hp Hh Ht. destruct (Hh K t Ht) as (v & Hv & Hty).
  exists v. split; [|by split].
  pose proof (get_run (X:=X) proto s E p K Hp) as Hg.
  unfold reads, Get in Hg. by rewrite Hv in Hg.
Qed.

Lemma reader_run (s : state jsval nat) E p K :
  env_map (heap s) E = Some p →
  reader K E (heap s) (world s)
  = (Ok (Get object_prototype p K), heap s, world s).
Proof.
  intros Hp. unfold reader, layer_of.
  pose proof (get_run (X:=string) object_prototype
                (State (heap s) (world s) []) E p K Hp) as Hg.
  unfold reads in Hg. by rewrite Hg.
Qed.

Lemma reader_allocates_only K : allocates_only (reader K).
Proof.
  apply layer_of_allocates_only. intros env s r s' Hg.
  by rewrite (get_state _ _ _ _ _ Hg).
Qed.

Lemma reader_keeps_store_ok K : keeps_store_ok (reader K).
Proof.
  intros env h w Hok. unfold reader, layer_of.
  destruct (getJ env K (State h w [])) as [[r s']|] eqn:Hg; simpl.
  - by rewrite (get_state _ _ _ _ _ Hg).
  - exact Hok.
Qed.

(** X11. A layer reads what was bound before it: for every environment
    [E], [E.withLayer(K2, env => env.get(K1))] invokes the constructor
    once on [E] and binds [K2] to what [K1] reads in [E], also when
    [K1 = K2]; [K1] keeps its value when the keys differ. *)
Theorem withLayer_reader (s : state jsval nat) E p K1 K2 :
  env_map (heap s) E = Some p →
  ∃ E' s',
    withLayer E K2 (reader K1) s = Some (Ok E', s')
    ∧ calls s' = calls s ++ [E]
    ∧ world s' = world s
    ∧ (∀ u, readsJ s E K1 u → readsJ s' E' K2 u)
    ∧ (∀ u, K1 ≠ K2 → readsJ s E K1 u → readsJ s' E' K1 u).
Proof.
  intros Hp.
  rewrite (withLayer_run _ _ _ _ _ _ _ (reader_run s E p K1 Hp)).
  destruct (with_spec (X:=string)
              (State (heap s) (world s) (calls s ++ [E])) E p K2
              (Get object_prototype p K1) Hp)
    as (E' & s' & Hw & _ & Hwo & Hc & _ & Hm).
  exists E', s'. split; [exact Hw|]. split; [exact Hc|]. split; [exact Hwo|].
  split.
  - intros u Hu. apply (reads_Get _ _ _ _ _ _ Hp) in Hu. subst u.
    apply (reads_Get _ _ _ _ _ _ Hm). by rewrite Get_insert_eq.
  - intros u Hne Hu. apply (reads_Get _ _ _ _ _ _ Hp) in Hu. subst u.
    apply (reads_Get _ _ _ _ _ _ Hm). rewrite Get_insert_ne; congruence.
Qed.

Lemma with_all_sig_cons T k t rest :
  with_all_sig T ((k, t) :: rest) = with_all_sig (with_sig T k t) rest.
Proof. reflexivity. Qed.

Lemma index_with_all_sig_notin kts : ∀ T K,
  K ∉ kts.*1 → index (with_all_sig T kts) K = index T K.
Proof.
  induction kts as [|[k t] rest IH]; intros T K Hk; [reflexivity|].
  simpl in Hk. apply not_elem_of_cons in Hk as [Hne Hrest].
  rewrite with_all_sig_cons, IH by assumption.
  apply (with_sig_other T k K t). congruence.
Qed.

Lemma index_with_all_sig_in kts : ∀ T K t,
  NoDup kts.*1 → (K, t) ∈ kts → K ∉ keyof T →
  index (with_all_sig T kts) K = Some t.
Proof.
  induction kts as [|[k0 t0] rest IH]; intros T K t Hnd Hin Hfresh.
  - by apply elem_of_nil in Hin.
  - simpl in Hnd. apply NoDup_cons in Hnd as [Hk0 Hnd].
    rewrite with_all_sig_cons.
    apply elem_of_cons in Hin as [[= -> ->]|Hin].
    + rewrite index_with_all_sig_notin by assumption.
      by apply (with_sig_fresh T k0 t0).
    + apply IH; [assumption..|].
      rewrite keyof_with_sig. intros [Hin'|Hin']%elem_of_union; [done|].
      apply elem_of_singleton in Hin'. subst k0.
      apply Hk0. by apply (list_elem_of_fmap_2 fst _ (K, t)).
Qed.

Lemma item_decl_keys items : (item_decl <$> items).*1 = items.*1.*1.
Proof. induction items as [|i rest IH]; [reflexivity|]. simpl. by f_equal. Qed.

Lemma honours_chain items : ∀ p T,
  honours p T →
  (∀ i, i ∈ items → i.1.1 ∉ keyof T) →
  NoDup items.*1.*1 →
  Forall item_typed items →
  honours (bind_all p items.*1) (with_all_sig T (item_decl <$> items)).
Proof.
  induction items as [|[[k v] t] rest IH]; intros p T Hh Hfresh Hnd Hty;
    [exact Hh|].
  simpl in Hnd. apply NoDup_cons in Hnd as [Hk Hnd].
  apply Forall_cons in Hty as [Hv Hty].
  change (honours (bind_all (<[k:=v]> p) rest.*1)
            (with_all_sig (with_sig T k t) (item_decl <$> rest))).
  apply IH; try assumption.
  - apply honours_with_fresh; [assumption| |exact Hv].
    apply (Hfresh (k, v, t)). left.
  - intros i Hi. rewrite keyof_with_sig.
    intros [Hin|Hin]%elem_of_union.
    + apply (Hfresh i); [by right|assumption].
    + apply elem_of_singleton in Hin. apply Hk. rewrite <- Hin.
      apply (list_elem_of_fmap_2 fst), (list_elem_of_fmap_2 fst), Hi.
Qed.

(** X10. A chain of [with] calls on keys that are new and pairwise
    distinct, with values of the declared types, is sound: starting from
    an environment whose map object is as its signature declares, the
    result is so again, and for every call [with(k, v)] of the chain
    [get(k)] is declared at the type of [v] and returns [v]. *)
Theorem typed_chain_sound {X W} (proto : string → jsval)
    (s : state jsval W) E p (T : sig) (items : list (string * jsval * ty)) :
  env_map (heap s) E = Some p →
  honours p T →
  (∀ i, i ∈ items → i.1.1 ∉ keyof T) →
  NoDup items.*1.*1 →
  Forall item_typed items →
  ∃ E' s' p',
    with_all (X:=X) E items.*1 s = Some (Ok E', s')
    ∧ env_map (heap s') E' = Some p'
    ∧ honours p' (with_all_sig T (item_decl <$> items))
    ∧ ∀ k v t, (k, v, t) ∈ items →
        get_sig (with_all_sig T (item_decl <$> items)) k = Some t
        ∧ get (X:=X) proto E' k s' = Some (Ok v, s')
        ∧ has_type v t = true.
Proof.
  intros Hp Hh Hfresh Hnd Hty.
  destruct (with_all_run (X:=X) items.*1 s E p Hp)
    as (E' & s' & Hr & _ & _ & _ & Hm).
  exists E', s', (bind_all p items.*1).
  split; [exact Hr|]. split; [exact Hm|].
  split; [by apply honours_chain|].
  intros k v t Hin. split; [|split].
  - apply index_with_all_sig_in.
    + by rewrite item_decl_keys.
    + apply (list_elem_of_fmap_2 item_decl _ (k, v, t) Hin).
    + apply (Hfresh (k, v, t) Hin).
  - assert (Hkv : (k, v) ∈ items.*1)
      by apply (list_elem_of_fmap_2 fst _ (k, v, t) Hin).
    apply list_elem_of_split in Hkv as (l1 & l2 & Hsplit).
    assert (Hk : k ∉ l2.*1).
    { rewrite Hsplit, fmap_app in Hnd. simpl in Hnd.
      apply NoDup_app in Hnd as (_ & _ & Hnd).
      by apply NoDup_cons in Hnd as [Hk _]. }
    pose proof (get_run (X:=X) proto s' E' _ k Hm) as Hg.
    unfold reads, Get in Hg.
    by rewrite Hsplit, bind_all_last in Hg.
  - apply Forall_forall with (x := (k, v, t)) in Hty; assumption.
Qed.

Lemma store_ok_s_a : store_ok (heap s_a).
Proof.
  intros e l Hl.
  destruct e as [|[|[|[|[|e]]]]]; simpl in Hl; try discriminate;
    injection Hl as <-; eexists; reflexivity.
Qed.

Lemma honours_E_a :
  honours {[ "a" := JNumber 1 ]} (with_sig build_sig "a" TNumber).
Proof.
  apply (honours_with_fresh ∅ build_sig "a" (JNumber 1) TNumber).
  - intros K t Hi. discriminate.
  - apply not_elem_of_empty.
  - reflexivity.
Qed.

Lemma get_unbound_key_witness :
  env_map (heap s_a) E_a = Some {[ "a" := JNumber 1 ]}
  ∧ ({[ "a" := JNumber 1 ]} : gmap string jsval) !! "b" = None
  ∧ getJ E_a "b" s_a = Some (Ok JUndefined, s_a).
Proof.
  split; [reflexivity|]. split; [reflexivity|].
  exact (proj1 (get_unbound_key (X:=string) object_prototype s_a E_a
                  {[ "a" := JNumber 1 ]} "b" env_map_E_a eq_refl)).
Defined.

Lemma with_key_set_witness :
  env_map (heap s_a) E_a = Some {[ "a" := JNumber 1 ]}
  ∧ ∃ E' s' p',
      with_ (X:=string) E_a "b" (JNumber 2) s_a = Some (Ok E', s')
      ∧ env_map (heap s') E' = Some p'
      ∧ dom p' = dom ({[ "a" := JNumber 1 ]} : gmap string jsval) ∪ {[ "b" ]}
      ∧ size p' = 2.
Proof.
  split; [reflexivity|].
  destruct (with_key_set (X:=string) s_a E_a {[ "a" := JNumber 1 ]}
              "b" (JNumber 2) env_map_E_a)
    as (E' & s' & p' & Hw & Hm & Hd & Hfresh & _).
  exists E', s', p'. repeat split; try assumption.
  exact (Hfresh eq_refl).
Defined.


Lemma with_same_value_witness :
  env_map (heap s_a) E_a = Some {[ "a" := JNumber 1 ]}
  ∧ ({[ "a" := JNumber 1 ]} : gmap string jsval) !! "a" = Some (JNumber 1)
  ∧ ∃ E' s',
      with_ (X:=string) E_a "a" (JNumber 1) s_a = Some (Ok E', s')
      ∧ env_map (heap s') E' = Some {[ "a" := JNumber 1 ]}
      ∧ E' ≠ E_a.
Proof.
  split; [reflexivity|]. split; [reflexivity|].
  destruct (with_same_value (X:=string) s_a E_a {[ "a" := JNumber 1 ]}
              "a" (JNumber 1) env_map_E_a eq_refl)
    as (E' & s' & Hw & Hm & _ & _ & Hne).
  exists E', s'. repeat split; assumption.
Defined.

Lemma consume_is_with_on_empty_witness :
  double_a E_ax (heap s_ax) (world s_ax) = (Ok (JNumber 2), heap s_ax, 0)
  ∧ ∃ Ea sa Eb sb q,
      consume E_ax "b" double_a s_ax = Some (Ok Ea, sa)
      ∧ (let* e := build in with_ (X:=string) e "b" (JNumber 2)) s_ax
        = Some (Ok Eb, sb)
      ∧ env_map (heap sa) Ea = Some q
      ∧ env_map (heap sb) Eb = Some q.
Proof.
  split; [reflexivity|].
  destruct (consume_is_with_on_empty object_prototype s_ax E_ax "b" double_a
              (JNumber 2) (heap s_ax) 0 eq_refl)
    as (Ea & sa & Eb & sb & q & Hc & Hw & Hma & Hmb & _).
  exists Ea, sa, Eb, sb, q. repeat split; assumption.
Defined.

Lemma with_all_spec_witness :
  env_map (heap s_a) E_a = Some {[ "a" := JNumber 1 ]}
  ∧ ∃ E' s',
      with_all (X:=string) E_a
        [("b", JNumber 2); ("a", JNumber 5); ("b", JNumber 3)] s_a
      = Some (Ok E', s')
      ∧ readsJ s' E' "a" (JNumber 5)
      ∧ readsJ s' E' "b" (JNumber 3)
      ∧ readsJ s' E_a "a" (JNumber 1).
Proof.
  split; [reflexivity|].
  destruct (with_all_spec (X:=string) object_prototype s_a E_a
              {[ "a" := JNumber 1 ]}
              [("b", JNumber 2); ("a", JNumber 5); ("b", JNumber 3)]
              env_map_E_a)
    as (E' & s' & Hr & _ & _ & Hlast & _ & Hold & _).
  exists E', s'. split; [exact Hr|]. split; [|split].
  - apply (Hlast [("b", JNumber 2)] [("b", JNumber 3)]); [reflexivity|].
    simpl. intros Hin%list_elem_of_singleton. discriminate.
  - apply (Hlast [("b", JNumber 2); ("a", JNumber 5)] []); [reflexivity|].
    simpl. apply not_elem_of_nil.
  - apply (reads_Get _ _ _ _ _ _ Hold). reflexivity.
Defined.

Lemma withLayer_chain_witness :
  env_map (heap s_a) E_a = Some {[ "a" := JNumber 1 ]}
  ∧ allocates_only succ_a
  ∧ succ_a E_a (heap s_a) (world s_a) = (Ok (JNumber 2), heap s_a, 0)
  ∧ ∃ E1 s1,
      withLayer E_a "b" succ_a s_a = Some (Ok E1, s1)
      ∧ ∃ r s2,
          (let* e1 := withLayer E_a "b" succ_a in
           withLayer e1 "c" (reader "b")) s_a = Some (r, s2)
          ∧ calls s2 = [E_a; E1]
          ∧ ∃ E2, r = Ok E2
                  ∧ env_map (heap s2) E2
                    = Some (<[ "c" := JNumber 2 ]>
                              (<[ "b" := JNumber 2 ]> {[ "a" := JNumber 1 ]})).
Proof.
  split; [reflexivity|]. split; [exact succ_a_allocates_only|].
  split; [reflexivity|].
  destruct (withLayer_chain s_a E_a {[ "a" := JNumber 1 ]} "b" "c"
              succ_a (reader "b") (Ok (JNumber 2)) (heap s_a) 0
              env_map_E_a succ_a_allocates_only eq_refl)
    as (E1 & s1 & H1 & Hm1 & Hw1 & Hnext).
  exists E1, s1. split; [exact H1|].
  destruct (Hnext (Ok (JNumber 2)) (heap s1) (world s1)
              (reader_allocates_only "b"))
    as (r & s2 & Hch & Hc & _ & E2 & Hr & Hm2).
  { rewrite (reader_run s1 E1 _ "b" Hm1). reflexivity. }
  exists r, s2. split; [exact Hch|]. split; [exact Hc|].
  exists E2. by split.
Defined.

Lemma store_ok_kept_witness :
  store_ok (heap s_a)
  ∧ heap s_a !! E_a = Some (Instance 3)
  ∧ allocates_only (reader "a")
  ∧ keeps_store_ok (reader "a")
  ∧ ∃ r s', withLayer E_a "b" (reader "a") s_a = Some (r, s')
            ∧ store_ok (heap s').
Proof.
  split; [exact store_ok_s_a|]. split; [reflexivity|].
  split; [exact (reader_allocates_only "a")|].
  split; [exact (reader_keeps_store_ok "a")|].
  destruct (store_ok_kept object_prototype s_a E_a 3 "b" (JNumber 0)
              (reader "a") store_ok_s_a eq_refl
              (reader_allocates_only "a") (reader_keeps_store_ok "a"))
    as (_ & _ & (r & s' & Hw & Hok & _) & _).
  exists r, s'. by split.
Defined.

Lemma with_keeps_signature_witness :
  env_map (heap s_a) E_a = Some {[ "a" := JNumber 1 ]}
  ∧ honours {[ "a" := JNumber 1 ]} (with_sig build_sig "a" TNumber)
  ∧ has_type (JNumber 7) TNumber = true
  ∧ (∀ t0, index (with_sig build_sig "a" TNumber) "a" = Some t0 →
           has_type (JNumber 7) t0 = true)
  ∧ ∃ E' s' p',
      with_ (X:=string) E_a "a" (JNumber 7) s_a = Some (Ok E', s')
      ∧ env_map (heap s') E' = Some p'
      ∧ honours p' (with_sig (with_sig build_sig "a" TNumber) "a" TNumber).
Proof.
  assert (Hold : ∀ t0, index (with_sig build_sig "a" TNumber) "a" = Some t0 →
                       has_type (JNumber 7) t0 = true).
  { intros t0 [= <-]. reflexivity. }
  split; [reflexivity|]. split; [exact honours_E_a|].
  split; [reflexivity|]. split; [exact Hold|].
  exact (with_keeps_signature (X:=string) s_a E_a {[ "a" := JNumber 1 ]}
           (with_sig build_sig "a" TNumber) "a" TNumber (JNumber 7)
           env_map_E_a honours_E_a eq_refl Hold).
Defined.

Lemma typed_chain_sound_witness :
  env_map (heap s_a) E_a = Some {[ "a" := JNumber 1 ]}
  ∧ honours {[ "a" := JNumber 1 ]} (with_sig build_sig "a" TNumber)
  ∧ NoDup ["b"; "c"]
  ∧ Forall item_typed
      [("b", JString "x", TString); ("c", JBoolean true, TBoolean)]
  ∧ ∃ E' s',
      with_all (X:=string) E_a [("b", JString "x"); ("c", JBoolean true)] s_a
      = Some (Ok E', s')
      ∧ get_sig (with_all_sig (with_sig build_sig "a" TNumber)
                   [("b", TString); ("c", TBoolean)]) "c" = Some TBoolean
      ∧ getJ E' "c" s' = Some (Ok (JBoolean true), s').
Proof.
  assert (Hnd : NoDup ["b"; "c"]).
  { apply NoDup_cons. split.
    - intros Hin%list_elem_of_singleton. discriminate.
    - apply NoDup_singleton. }
  assert (Hty : Forall item_typed
                  [("b", JString "x", TString); ("c", JBoolean true, TBoolean)]).
  { repeat constructor. }
  assert (Hfresh : ∀ i : string * jsval * ty,
            i ∈ [("b", JString "x", TString); ("c", JBoolean true, TBoolean)] →
            i.1.1 ∉ keyof (with_sig build_sig "a" TNumber)).
  { intros i Hi Hin. simpl in Hin. rewrite (left_id_L ∅ (∪)) in Hin.
    apply elem_of_singleton in Hin.
    apply elem_of_cons in Hi as [->|Hi]; [discriminate|].
    apply list_elem_of_singleton in Hi as ->. discriminate. }
  split; [reflexivity|]. split; [exact honours_E_a|].
  split; [exact Hnd|]. split; [exact Hty|].
  destruct (typed_chain_sound (X:=string) object_prototype s_a E_a
              {[ "a" := JNumber 1 ]} (with_sig build_sig "a" TNumber)
              [("b", JString "x", TString); ("c", JBoolean true, TBoolean)]
              env_map_E_a honours_E_a Hfresh Hnd Hty)
    as (E' & s' & p' & Hr & _ & _ & Hall).
  exists E', s'. split; [exact Hr|].
  destruct (Hall "c" (JBoolean true) TBoolean) as (Hs & Hg & _).
  { right. left. }
  by split.
Defined.

Lemma withLayer_reader_witness :
  env_map (heap s_a) E_a = Some {[ "a" := JNumber 1 ]}
  ∧ ∃ E' s',
      withLayer E_a "b" (reader "a") s_a = Some (Ok E', s')
      ∧ readsJ s' E' "b" (JNumber 1)
      ∧ readsJ s' E' "a" (JNumber 1).
Proof.
  split; [reflexivity|].
  destruct (withLayer_reader s_a E_a {[ "a" := JNumber 1 ]} "a" "b"
              env_map_E_a)
    as (E' & s' & Hw & _ & _ & Hb & Ha).
  exists E', s'. split; [exact Hw|].
  split; [apply Hb | apply Ha; [discriminate|]]; reflexivity.
Defined.

End DemoFacts.
